(** * chan::channel: a bounded multi-producer / multi-consumer channel

  Shallow embedding of [src/channel.hpp].

  The class keeps all of its mutable fields behind one mutex, so every
  member function is a critical section.  A member function is modelled
  as a function on the record of fields that describes what happens
  between taking the lock and releasing it.  The two places where a
  caller parks on the condition variable ([cv.wait] in [send] and in
  [recv]) are modelled by the outcome [Suspended]: the caller gave the
  lock back without touching any field, and it runs the rest of the
  member function only in a later state in which its predicate holds.
  Because both wait predicates are the exact negation of the guard that
  leads into the wait, re-running the member function in that later
  state describes the resumed call.

  [cv.notify_one] / [cv.notify_all] only choose which parked callers
  are rescheduled; they touch no field and are not part of the record. *)

From Stdlib Require Import ZArith List Bool Lia.
Import ListNotations.

Local Open Scope Z_scope.

(** ** Integer types

  [size_t] is a 64-bit unsigned integer and [unsigned int] a 32-bit one
  (LP64).  Values are kept in [Z]; the one subtraction the class does on
  [size_t] has its wrap-around written out. *)

Definition size_t_bits : Z := 64.
Definition size_t_modulus : Z := 2 ^ size_t_bits.
Definition size_t_max : Z := size_t_modulus - 1.

Definition size_t_sub (a b : Z) : Z := (a - b) mod size_t_modulus.

(** ** std::queue

  The front of the queue is the head of the list. *)

Module Queue.
Section Ops.
Context {T : Type}.

Definition push (x : T) (q : list T) : list T := q ++ [x].

Definition pop (q : list T) : list T := tl q.

Definition front (q : list T) : option T := hd_error q.

Definition empty (q : list T) : bool :=
  match q with
  | [] => true
  | _ :: _ => false
  end.

Definition size (q : list T) : Z := Z.of_nat (length q).

End Ops.
End Queue.

(** ** The channel *)

Section Channel.
Variable T : Type.   (* value_type, i.e. tuple<Ts...> *)

(** The data members, in declaration order (mutex and condition variable
    apart).  [dropped_count_] is [None] as long as no statement has
    assigned it: its value is then indeterminate. *)
Record channel : Type := mk_channel {
  queue : list T;
  closed : bool;
  sealed : bool;
  dropped_count_ : option Z;
  buffer_size : Z
}.

Definition set_closed (b : bool) (s : channel) : channel :=
  mk_channel (queue s) b (sealed s) (dropped_count_ s) (buffer_size s).

Definition set_sealed (b : bool) (s : channel) : channel :=
  mk_channel (queue s) (closed s) b (dropped_count_ s) (buffer_size s).

Definition set_queue (q : list T) (s : channel) : channel :=
  mk_channel q (closed s) (sealed s) (dropped_count_ s) (buffer_size s).

Definition set_dropped_count_ (d : Z) (s : channel) : channel :=
  mk_channel (queue s) (closed s) (sealed s) (Some d) (buffer_size s).

(** [channel(unsigned int buffer_size = 1)]: the member initialiser list
    names [closed], [sealed] and [buffer_size]; the queue is
    default-constructed and [dropped_count_] is left alone. *)
Definition new_channel (buffer_size : Z) : channel :=
  mk_channel [] false false None buffer_size.

Definition default_buffer_size : Z := 1.

(** What a call gives back: either the caller is parked in [cv.wait]
    (no field changed), or the call returned [r] leaving the channel
    in state [s]. *)
Inductive outcome (R : Type) : Type :=
| Suspended : outcome R
| Returned (r : R) (s : channel) : outcome R.
Arguments Suspended {R}.
Arguments Returned {R} r s.

(** [cv.wait(lock, pred)] followed by the continuation [k]. *)
Definition cv_wait {R : Type} (pred : bool) (k : outcome R) : outcome R :=
  if pred then k else Suspended.

(** *** close, seal and the accessors *)

Definition close (s : channel) : channel :=
  if closed s then s else set_closed true s.

Definition is_closed (s : channel) : bool := closed s.

Definition seal (s : channel) : channel :=
  if closed s || sealed s then s else set_sealed true s.

Definition is_sealed (s : channel) : bool := sealed s.

Definition is_empty (s : channel) : bool := Queue.empty (queue s).

Definition is_full (s : channel) : bool :=
  if buffer_size s =? 0 then false
  else Queue.size (queue s) >=? buffer_size s.

Definition size (s : channel) : Z := Queue.size (queue s).

Definition dropped_count (s : channel) : option Z := dropped_count_ s.

(** *** send *)

(** [while (queue.size() > buffer_size) queue.pop();] *)
Fixpoint pop_while_over (bs : Z) (q : list T) : list T :=
  if Queue.size q >? bs then
    match q with
    | [] => []
    | _ :: q' => pop_while_over bs q'
    end
  else q.

(** From [queue.push] to [dropped_count_ = d]. *)
Definition push_and_trim (x : T) (s : channel) : channel :=
  let d := 0 in
  let q1 := Queue.push x (queue s) in
  let '(d, q2) :=
    if buffer_size s >? 0
    then (size_t_sub (Queue.size q1) (buffer_size s),
          pop_while_over (buffer_size s) q1)
    else (d, q1) in
  set_dropped_count_ d (set_queue q2 s).

(** The part of [send] after the wait. *)
Definition send_locked (x : T) (s : channel) : bool * channel :=
  if closed s || sealed s then (false, s)
  else (true, push_and_trim x s).

Definition send (wait_while_full : bool) (x : T) (s : channel)
  : outcome bool :=
  let rest := Returned (fst (send_locked x s)) (snd (send_locked x s)) in
  if wait_while_full && negb (closed s) && negb (sealed s)
     && (Queue.size (queue s) >=? buffer_size s)
  then cv_wait (closed s || sealed s
                || (Queue.size (queue s) <? buffer_size s)) rest
  else rest.

(** *** recv

    The [bool] result and the out-parameters are one [option]: [Some x]
    is [true] with [x] stored through [out...], [None] is [false] with
    the out-parameters untouched. *)

Definition recv_locked (s : channel) : option T * channel :=
  if closed s then (None, s)
  else if sealed s && Queue.empty (queue s) then (None, set_closed true s)
  else if Queue.empty (queue s) then (None, s)
  else (Queue.front (queue s), set_queue (Queue.pop (queue s)) s).

Definition recv (wait : bool) (s : channel) : outcome (option T) :=
  let rest := Returned (fst (recv_locked s)) (snd (recv_locked s)) in
  if negb (sealed s) && wait
  then cv_wait (closed s || negb (Queue.empty (queue s))
                || (sealed s && Queue.empty (queue s))) rest
  else rest.

End Channel.

Arguments mk_channel {T}.
Arguments queue {T}.
Arguments closed {T}.
Arguments sealed {T}.
Arguments dropped_count_ {T}.
Arguments buffer_size {T}.
Arguments set_closed {T}.
Arguments set_sealed {T}.
Arguments set_queue {T}.
Arguments set_dropped_count_ {T}.
Arguments new_channel {T}.
Arguments Suspended {T R}.
Arguments Returned {T R}.
Arguments cv_wait {T R}.
Arguments close {T}.
Arguments is_closed {T}.
Arguments seal {T}.
Arguments is_sealed {T}.
Arguments is_empty {T}.
Arguments is_full {T}.
Arguments size {T}.
Arguments dropped_count {T}.
Arguments pop_while_over {T}.
Arguments push_and_trim {T}.
Arguments send_locked {T}.
Arguments send {T}.
Arguments recv_locked {T}.
Arguments recv {T}.

(** ** Calls and call sequences

    One value per public member function (the destructor is [close]).  A
    sequence of calls is the order in which callers go through the lock; a
    call that ends up parked leaves the fields as they were. *)

Inductive call (T : Type) : Type :=
| Close
| IsClosed
| Seal
| IsSealed
| IsEmpty
| IsFull
| Size
| Send (wait_while_full : bool) (x : T)
| DroppedCount
| Recv (wait : bool).
Arguments Close {T}.
Arguments IsClosed {T}.
Arguments Seal {T}.
Arguments IsSealed {T}.
Arguments IsEmpty {T}.
Arguments IsFull {T}.
Arguments Size {T}.
Arguments Send {T}.
Arguments DroppedCount {T}.
Arguments Recv {T}.

(** What the caller sees. *)
Inductive reply (T : Type) : Type :=
| Parked
| Void
| Flag (b : bool)
| Count (n : Z)
| Dropped (d : option Z)
| Sent (ok : bool)
| Received (m : option T).
Arguments Parked {T}.
Arguments Void {T}.
Arguments Flag {T}.
Arguments Count {T}.
Arguments Dropped {T}.
Arguments Sent {T}.
Arguments Received {T}.

Definition perform {T : Type} (c : call T) (s : channel T)
  : reply T * channel T :=
  match c with
  | Close => (Void, close s)
  | IsClosed => (Flag (is_closed s), s)
  | Seal => (Void, seal s)
  | IsSealed => (Flag (is_sealed s), s)
  | IsEmpty => (Flag (is_empty s), s)
  | IsFull => (Flag (is_full s), s)
  | Size => (Count (size s), s)
  | Send w x =>
      match send w x s with
      | Suspended => (Parked, s)
      | Returned ok s' => (Sent ok, s')
      end
  | DroppedCount => (Dropped (dropped_count s), s)
  | Recv w =>
      match recv w s with
      | Suspended => (Parked, s)
      | Returned m s' => (Received m, s')
      end
  end.

Definition step {T : Type} (c : call T) (s : channel T) : channel T :=
  snd (perform c s).

Fixpoint run {T : Type} (cs : list (call T)) (s : channel T)
  : list (reply T) * channel T :=
  match cs with
  | [] => ([], s)
  | c :: cs' =>
      let '(r, s1) := perform c s in
      let '(rs, s2) := run cs' s1 in
      (r :: rs, s2)
  end.

Definition replies {T : Type} (cs : list (call T)) (s : channel T)
  : list (reply T) := fst (run cs s).

Definition after {T : Type} (cs : list (call T)) (s : channel T)
  : channel T := snd (run cs s).

(** The three states of the life cycle, read off the two flags. *)
Inductive phase : Type := Open | Sealed | Closed.

Definition phase_of {T : Type} (s : channel T) : phase :=
  if closed s then Closed else if sealed s then Sealed else Open.

(** [advances p p'] holds for staying put and for the moves
    Open -> Sealed, Open -> Closed and Sealed -> Closed. *)
Definition advances (p p' : phase) : bool :=
  match p, p' with
  | Open, _ => true
  | Sealed, Sealed => true
  | Sealed, Closed => true
  | Closed, Closed => true
  | _, _ => false
  end.

Definition is_send {T : Type} (c : call T) : bool :=
  match c with
  | Send _ _ => true
  | _ => false
  end.

Definition is_sent_ok {T : Type} (r : reply T) : bool :=
  match r with
  | Sent true => true
  | _ => false
  end.

(** *** Bookkeeping for ordering arguments

    What one call, made in state [s], puts at the back of the queue and
    what it takes from the front, the latter split into what [recv] hands
    to its caller and what the overflow loop of [send] throws away. *)

Definition enqueued {T : Type} (c : call T) (s : channel T) : list T :=
  match c, fst (perform c s) with
  | Send _ x, Sent true => [x]
  | _, _ => []
  end.

Definition delivered {T : Type} (c : call T) (s : channel T) : list T :=
  match fst (perform c s) with
  | Received (Some m) => [m]
  | _ => []
  end.

Definition evicted {T : Type} (c : call T) (s : channel T) : list T :=
  match c, fst (perform c s) with
  | Send _ x, Sent true =>
      firstn (length (queue s ++ [x]) - length (queue (step c s)))
             (queue s ++ [x])
  | _, _ => []
  end.

Fixpoint all_enqueued {T : Type} (cs : list (call T)) (s : channel T)
  : list T :=
  match cs with
  | [] => []
  | c :: cs' => enqueued c s ++ all_enqueued cs' (step c s)
  end.

Fixpoint all_delivered {T : Type} (cs : list (call T)) (s : channel T)
  : list T :=
  match cs with
  | [] => []
  | c :: cs' => delivered c s ++ all_delivered cs' (step c s)
  end.

Fixpoint all_evicted {T : Type} (cs : list (call T)) (s : channel T)
  : list T :=
  match cs with
  | [] => []
  | c :: cs' => evicted c s ++ all_evicted cs' (step c s)
  end.

(** Everything that left the front of the queue, in the order it left. *)
Fixpoint all_removed {T : Type} (cs : list (call T)) (s : channel T)
  : list T :=
  match cs with
  | [] => []
  | c :: cs' => evicted c s ++ delivered c s ++ all_removed cs' (step c s)
  end.

(** ** Facts about the queue adaptor *)

Module QueueFacts.
Section Facts.
Context {T : Type}.

Lemma size_nonneg (q : list T) : 0 <= Queue.size q.
Proof. unfold Queue.size. lia. Qed.

Lemma size_push (x : T) (q : list T) :
  Queue.size (Queue.push x q) = Queue.size q + 1.
Proof. unfold Queue.size, Queue.push. rewrite length_app. simpl. lia. Qed.

Lemma size_cons (x : T) (q : list T) :
  Queue.size (x :: q) = Queue.size q + 1.
Proof. unfold Queue.size. simpl length. lia. Qed.

Lemma size_nil : Queue.size (@nil T) = 0.
Proof. reflexivity. Qed.

Lemma empty_true_iff (q : list T) : Queue.empty q = true <-> q = [].
Proof. destruct q; simpl; split; congruence. Qed.

End Facts.
End QueueFacts.

(** ** The overflow loop *)

Lemma pop_while_over_unfold {T} (bs : Z) (q : list T) :
  pop_while_over bs q =
  if Queue.size q >? bs then
    match q with [] => [] | _ :: q' => pop_while_over bs q' end
  else q.
Proof. destruct q; reflexivity. Qed.

Lemma pop_while_over_fits {T} (bs : Z) (q : list T) :
  Queue.size q <= bs -> pop_while_over bs q = q.
Proof.
  intros H. rewrite pop_while_over_unfold.
  destruct (Z.gtb_spec (Queue.size q) bs); [lia | reflexivity].
Qed.

(** The loop leaves a suffix of the queue. *)
Lemma pop_while_over_suffix {T} (bs : Z) (q : list T) :
  exists gone, q = gone ++ pop_while_over bs q.
Proof.
  induction q as [|a q IH].
  - exists []. rewrite pop_while_over_unfold. destruct (_ >? _); reflexivity.
  - rewrite pop_while_over_unfold.
    destruct (Queue.size (a :: q) >? bs).
    + destruct IH as [gone IH]. exists (a :: gone). simpl. now f_equal.
    + now exists [].
Qed.

(** With a non-negative bound the loop stops at or below the bound. *)
Lemma pop_while_over_bound {T} (bs : Z) (q : list T) :
  0 <= bs -> Queue.size (pop_while_over bs q) <= bs.
Proof.
  intros Hbs. induction q as [|a q IH]; rewrite pop_while_over_unfold.
  - destruct (_ >? _); rewrite QueueFacts.size_nil; exact Hbs.
  - destruct (Z.gtb_spec (Queue.size (a :: q)) bs); [exact IH | lia].
Qed.

(** One element over the bound: exactly the front goes. *)
Lemma pop_while_over_one {T} (bs : Z) (a : T) (q : list T) :
  Queue.size (a :: q) = bs + 1 -> pop_while_over bs (a :: q) = q.
Proof.
  intros H. rewrite pop_while_over_unfold.
  destruct (Z.gtb_spec (Queue.size (a :: q)) bs); [|lia].
  apply pop_while_over_fits. rewrite QueueFacts.size_cons in H. lia.
Qed.

(** With a positive bound the loop never removes the last element. *)
Lemma pop_while_over_keeps_back {T} (bs : Z) (x : T) (q : list T) :
  0 < bs ->
  exists gone kept,
    q = gone ++ kept /\ pop_while_over bs (q ++ [x]) = kept ++ [x].
Proof.
  intros Hbs. induction q as [|a q IH].
  - exists [], []. split; [reflexivity|].
    apply pop_while_over_fits. cbn. lia.
  - rewrite pop_while_over_unfold.
    destruct (Z.gtb_spec (Queue.size ((a :: q) ++ [x])) bs).
    + destruct IH as (gone & kept & Hq & Hk).
      exists (a :: gone), kept. simpl. split; [now f_equal | exact Hk].
    + exists [], (a :: q). split; reflexivity.
Qed.

(** ** Single calls *)

Ltac flags s :=
  let q := fresh "q" in
  let c := fresh "c" in
  let e := fresh "e" in
  let d := fresh "d" in
  let bs := fresh "bs" in
  destruct s as [q c e d bs]; destruct c, e.

Lemma send_returned {T} (w : bool) (x : T) (s s' : channel T) (ok : bool) :
  send w x s = Returned ok s' -> send_locked x s = (ok, s').
Proof.
  unfold send, cv_wait. intros H.
  destruct (send_locked x s) as [r t]. simpl in H.
  repeat match type of H with
         | (if ?b then _ else _) = _ => destruct b
         end; congruence.
Qed.

Lemma recv_returned {T} (w : bool) (s s' : channel T) (m : option T) :
  recv w s = Returned m s' -> recv_locked s = (m, s').
Proof.
  unfold recv, cv_wait. intros H.
  destruct (recv_locked s) as [r t]. simpl in H.
  repeat match type of H with
         | (if ?b then _ else _) = _ => destruct b
         end; congruence.
Qed.

(** A drop-policy send never parks. *)
Lemma send_nowait {T} (x : T) (s : channel T) :
  send false x s = Returned (fst (send_locked x s)) (snd (send_locked x s)).
Proof. reflexivity. Qed.

(** On a closed channel neither variant of [send] parks; the call is
    turned down and nothing changes. *)
Lemma send_closed {T} (w : bool) (x : T) (s : channel T) :
  closed s = true -> send w x s = Returned false s.
Proof.
  intros H. unfold send, send_locked, cv_wait. rewrite H. simpl.
  now rewrite andb_false_r.
Qed.

Lemma send_sealed {T} (w : bool) (x : T) (s : channel T) :
  sealed s = true -> send w x s = Returned false s.
Proof.
  intros H. unfold send, send_locked, cv_wait. rewrite H. simpl.
  rewrite orb_true_r, !andb_false_r. reflexivity.
Qed.

Lemma recv_closed {T} (w : bool) (s : channel T) :
  closed s = true -> recv w s = Returned None s.
Proof.
  intros H. unfold recv, recv_locked, cv_wait. rewrite H. simpl.
  now destruct (negb (sealed s) && w).
Qed.

(** On a sealed channel [recv] never parks. *)
Lemma recv_sealed {T} (w : bool) (s : channel T) :
  sealed s = true ->
  recv w s = Returned (fst (recv_locked s)) (snd (recv_locked s)).
Proof. intros H. unfold recv. now rewrite H. Qed.

Lemma step_buffer_size {T} (c : call T) (s : channel T) :
  buffer_size (step c s) = buffer_size s.
Proof.
  destruct c; try reflexivity; unfold step, perform.
  - unfold close. now destruct (closed s).
  - unfold seal. now destruct (closed s || sealed s).
  - destruct (send wait_while_full x s) as [|ok s'] eqn:E; [reflexivity|].
    apply send_returned in E. unfold send_locked, push_and_trim in E.
    destruct (closed s || sealed s); inversion E; subst; [reflexivity|].
    now destruct (buffer_size s >? 0).
  - destruct (recv wait s) as [|m s'] eqn:E; [reflexivity|].
    apply recv_returned in E. unfold recv_locked in E.
    repeat match type of E with
           | (if ?b then _ else _) = _ => destruct b
           end; inversion E; reflexivity.
Qed.

Lemma step_phase {T} (c : call T) (s : channel T) :
  advances (phase_of s) (phase_of (step c s)) = true.
Proof.
  destruct c; unfold step, perform; simpl;
    try (unfold phase_of; now destruct (closed s), (sealed s)).
  - unfold close, phase_of. flags s; reflexivity.
  - unfold seal, phase_of. flags s; reflexivity.
  - destruct (send wait_while_full x s) as [|ok s'] eqn:E; simpl.
    + unfold phase_of; now destruct (closed s), (sealed s).
    + apply send_returned in E. unfold send_locked, push_and_trim in E.
      unfold phase_of. flags s; simpl in E; inversion E; subst; simpl;
        try reflexivity; now destruct (bs >? 0).
  - destruct (recv wait s) as [|m s'] eqn:E; simpl.
    + unfold phase_of; now destruct (closed s), (sealed s).
    + apply recv_returned in E. unfold recv_locked in E.
      unfold phase_of. flags s; simpl in E;
        try (destruct (Queue.empty q)); inversion E; reflexivity.
Qed.

Lemma advances_trans (p1 p2 p3 : phase) :
  advances p1 p2 = true -> advances p2 p3 = true -> advances p1 p3 = true.
Proof. destruct p1, p2, p3; simpl; congruence. Qed.

Lemma advances_refl (p : phase) : advances p p = true.
Proof. now destruct p. Qed.

Lemma step_closed {T} (c : call T) (s : channel T) :
  closed s = true -> closed (step c s) = true.
Proof.
  intros H. pose proof (step_phase c s) as P. unfold phase_of in P.
  rewrite H in P. destruct (closed (step c s)); [reflexivity|].
  now destruct (sealed (step c s)).
Qed.

Lemma step_sealed {T} (c : call T) (s : channel T) :
  sealed s = true -> sealed (step c s) = true.
Proof.
  intros H. destruct c; unfold step, perform; simpl; auto.
  - unfold close. now destruct (closed s).
  - unfold seal. now destruct (closed s || sealed s).
  - now rewrite send_sealed.
  - rewrite recv_sealed by exact H. simpl. unfold recv_locked.
    repeat match goal with
           | |- context [if ?b then _ else _] => destruct b
           end; exact H.
Qed.

Lemma after_cons {T} (c : call T) (cs : list (call T)) (s : channel T) :
  after (c :: cs) s = after cs (step c s).
Proof.
  unfold after, step. simpl. destruct (perform c s) as [r s1]. simpl.
  now destruct (run cs s1).
Qed.

Lemma after_nil {T} (s : channel T) : after [] s = s.
Proof. reflexivity. Qed.

Lemma after_app {T} (cs1 cs2 : list (call T)) (s : channel T) :
  after (cs1 ++ cs2) s = after cs2 (after cs1 s).
Proof.
  revert s. induction cs1 as [|c cs1 IH]; intros s; [reflexivity|].
  simpl app. now rewrite !after_cons, IH.
Qed.

Lemma replies_cons {T} (c : call T) (cs : list (call T)) (s : channel T) :
  replies (c :: cs) s = fst (perform c s) :: replies cs (step c s).
Proof.
  unfold replies, step. simpl. destruct (perform c s) as [r s1]. simpl.
  now destruct (run cs s1).
Qed.

Lemma replies_app {T} (cs1 cs2 : list (call T)) (s : channel T) :
  replies (cs1 ++ cs2) s = replies cs1 s ++ replies cs2 (after cs1 s).
Proof.
  revert s. induction cs1 as [|c cs1 IH]; intros s; [reflexivity|].
  simpl app. now rewrite !replies_cons, after_cons, IH.
Qed.

Lemma after_buffer_size {T} (cs : list (call T)) (s : channel T) :
  buffer_size (after cs s) = buffer_size s.
Proof.
  revert s. induction cs as [|c cs IH]; intros s; [reflexivity|].
  now rewrite after_cons, IH, step_buffer_size.
Qed.

Lemma after_closed {T} (cs : list (call T)) (s : channel T) :
  closed s = true -> closed (after cs s) = true.
Proof.
  revert s. induction cs as [|c cs IH]; intros s H; [exact H|].
  rewrite after_cons. apply IH. now apply step_closed.
Qed.

Lemma after_sealed {T} (cs : list (call T)) (s : channel T) :
  sealed s = true -> sealed (after cs s) = true.
Proof.
  revert s. induction cs as [|c cs IH]; intros s H; [exact H|].
  rewrite after_cons. apply IH. now apply step_sealed.
Qed.

Lemma after_phase {T} (cs : list (call T)) (s : channel T) :
  advances (phase_of s) (phase_of (after cs s)) = true.
Proof.
  revert s. induction cs as [|c cs IH]; intros s.
  - apply advances_refl.
  - rewrite after_cons.
    exact (advances_trans _ _ _ (step_phase c s) (IH (step c s))).
Qed.

(** ** Life cycle: close and seal *)

Lemma close_closed {T} (s : channel T) : closed (close s) = true.
Proof. unfold close. destruct (closed s) eqn:E; [exact E | reflexivity]. Qed.

Lemma close_when_closed {T} (s : channel T) :
  closed s = true -> close s = s.
Proof. intros H. unfold close. now rewrite H. Qed.

Lemma seal_when_done {T} (s : channel T) :
  closed s = true \/ sealed s = true -> seal s = s.
Proof.
  intros H. unfold seal.
  replace (closed s || sealed s) with true; [reflexivity|].
  symmetry. apply orb_true_iff. exact H.
Qed.

Lemma seal_open {T} (s : channel T) :
  closed s = false -> sealed s = false -> seal s = set_sealed true s.
Proof. intros Hc He. unfold seal. now rewrite Hc, He. Qed.

(** C9: The state only moves forward along Open -> Sealed -> Closed or
    Open -> Closed: over any sequence of calls (send, recv, seal, close
    and the accessors, in either policy) the phase read off the flags
    advances or stays, and neither the closed flag nor the sealed flag
    is ever cleared once it is set. *)
Theorem C9_state_never_regresses {T} (cs : list (call T)) (s : channel T) :
  advances (phase_of s) (phase_of (after cs s)) = true /\
  (closed s = true -> closed (after cs s) = true) /\
  (sealed s = true -> sealed (after cs s) = true).
Proof.
  split; [apply after_phase|].
  split; [apply after_closed | apply after_sealed].
Qed.

(** C10: close() and seal() are idempotent.  Closing twice is closing
    once and sealing twice is sealing once; on a channel whose closed
    flag is set close() changes no field, and on a channel that is
    sealed or closed seal() changes no field.  In particular seal()
    after close() leaves the sealed flag as it was. *)
Theorem C10_close_seal_idempotent {T} (s : channel T) :
  close (close s) = close s /\
  seal (seal s) = seal s /\
  seal (close s) = close s /\
  sealed (seal (close s)) = sealed s /\
  (closed s = true -> close s = s) /\
  (closed s = true \/ sealed s = true -> seal s = s).
Proof.
  repeat split.
  - apply close_when_closed, close_closed.
  - unfold seal. destruct (closed s || sealed s) eqn:E.
    + now rewrite E.
    + apply orb_false_iff in E. destruct E as [Ec Es].
      simpl. now rewrite Ec.
  - apply seal_when_done. left. apply close_closed.
  - rewrite seal_when_done by (left; apply close_closed).
    unfold close. now destruct (closed s).
  - apply close_when_closed.
  - apply seal_when_done.
Qed.

(** C4: After close(), whatever calls follow, every recv (waiting or
    polling) returns failure and leaves the channel as it is, however
    many messages are still queued, and every send (either policy)
    returns false and leaves the channel, its queue included, as it is. *)
Theorem C4_hard_close {T} (s : channel T) (cs : list (call T))
    (w : bool) (x : T) :
  let s' := after cs (close s) in
  recv w s' = Returned None s' /\ send w x s' = Returned false s'.
Proof.
  intros s'.
  assert (H : closed s' = true) by apply after_closed, close_closed.
  split; [now apply recv_closed | now apply send_closed].
Qed.

(** ** send *)

Lemma push_and_trim_flags {T} (x : T) (s : channel T) :
  closed (push_and_trim x s) = closed s /\
  sealed (push_and_trim x s) = sealed s /\
  buffer_size (push_and_trim x s) = buffer_size s.
Proof. unfold push_and_trim. now destruct (buffer_size s >? 0). Qed.

Lemma push_and_trim_queue {T} (x : T) (s : channel T) :
  queue (push_and_trim x s) =
  if buffer_size s >? 0
  then pop_while_over (buffer_size s) (Queue.push x (queue s))
  else Queue.push x (queue s).
Proof. unfold push_and_trim. now destruct (buffer_size s >? 0). Qed.

Lemma push_and_trim_dropped {T} (x : T) (s : channel T) :
  dropped_count (push_and_trim x s) =
  Some (if buffer_size s >? 0
        then size_t_sub (Queue.size (Queue.push x (queue s))) (buffer_size s)
        else 0).
Proof. unfold push_and_trim. now destruct (buffer_size s >? 0). Qed.

Lemma push_and_trim_back {T} (x : T) (s : channel T) :
  exists gone kept,
    queue s = gone ++ kept /\ queue (push_and_trim x s) = kept ++ [x].
Proof.
  rewrite push_and_trim_queue.
  destruct (Z.gtb_spec (buffer_size s) 0) as [Hpos|Hle].
  - apply pop_while_over_keeps_back. lia.
  - now exists [], (queue s).
Qed.

(** C8: send returns false exactly when the channel is sealed or closed
    at the check that follows the wait.  On a sealed or closed channel
    send, in either policy, does return, returns false, and leaves every
    field as it was.  On an open channel it either parks (wait_while_full
    with no room) or returns true.  Whenever it returns: the result is
    false exactly when the channel is sealed or closed; a send that is
    turned down leaves every field as it was; a send that returns true
    has put its message at the back of the queue (in front of it is what
    is left of the old queue) and has not touched the flags or the
    capacity. *)
Theorem C8_send_rejects_iff_not_open {T} (w : bool) (x : T)
    (s : channel T) :
  (closed s = true \/ sealed s = true -> send w x s = Returned false s) /\
  (closed s = false -> sealed s = false ->
   send w x s =
   if w && (size s >=? buffer_size s) then Suspended
   else Returned true (push_and_trim x s)) /\
  (forall (ok : bool) (s' : channel T),
      send w x s = Returned ok s' ->
      (ok = false <-> closed s = true \/ sealed s = true) /\
      (ok = false -> s' = s) /\
      (ok = true ->
       exists gone kept,
         queue s = gone ++ kept /\ queue s' = kept ++ [x] /\
         closed s' = closed s /\ sealed s' = sealed s /\
         buffer_size s' = buffer_size s)).
Proof.
  split; [|split].
  - intros [H|H]; [now apply send_closed | now apply send_sealed].
  - intros Hc He. unfold send, send_locked, cv_wait, size.
    rewrite Hc, He. simpl. rewrite !andb_true_r.
    destruct w; simpl; [|reflexivity].
    destruct (Z.geb_spec (Queue.size (queue s)) (buffer_size s));
      [|reflexivity].
    destruct (Z.ltb_spec (Queue.size (queue s)) (buffer_size s));
      [lia | reflexivity].
  - intros ok s' H. apply send_returned in H. unfold send_locked in H.
    destruct (closed s || sealed s) eqn:E; inversion H; subst; clear H.
    + apply orb_true_iff in E. repeat split; auto. discriminate.
    + apply orb_false_iff in E. destruct E as [Ec Es].
      split; [|split]; try discriminate.
      * split; [discriminate|]. intros [F|F]; congruence.
      * intros _.
        destruct (push_and_trim_back x s) as (gone & kept & Hq & Hk).
        destruct (push_and_trim_flags x s) as (Fc & Fs & Fb).
        exists gone, kept. auto.
Qed.

(** ** The capacity bound *)

Lemma step_within_capacity {T} (c : call T) (s : channel T) :
  0 < buffer_size s ->
  Queue.size (queue s) <= buffer_size s ->
  Queue.size (queue (step c s)) <= buffer_size s.
Proof.
  intros Hpos Hinv. destruct c; unfold step, perform; simpl; auto.
  - unfold close. now destruct (closed s).
  - unfold seal. now destruct (closed s || sealed s).
  - destruct (send wait_while_full x s) as [|ok s'] eqn:E; [exact Hinv|].
    apply send_returned in E. unfold send_locked in E.
    destruct (closed s || sealed s); inversion E; subst; [exact Hinv|].
    simpl. rewrite push_and_trim_queue.
    destruct (Z.gtb_spec (buffer_size s) 0); [|lia].
    apply pop_while_over_bound. lia.
  - destruct (recv wait s) as [|m s'] eqn:E; [exact Hinv|].
    apply recv_returned in E. unfold recv_locked in E.
    destruct (closed s); [inversion E; subst; exact Hinv|].
    destruct (sealed s && Queue.empty (queue s));
      [inversion E; subst; exact Hinv|].
    destruct (queue s) as [|a q] eqn:Q; simpl in E; inversion E; subst.
    + simpl. rewrite Q. exact Hinv.
    + simpl. rewrite QueueFacts.size_cons in Hinv. lia.
Qed.

Lemma after_within_capacity {T} (cs : list (call T)) (s : channel T) :
  0 < buffer_size s ->
  Queue.size (queue s) <= buffer_size s ->
  Queue.size (queue (after cs s)) <= buffer_size s.
Proof.
  revert s. induction cs as [|c cs IH]; intros s Hpos Hinv; [exact Hinv|].
  rewrite after_cons. rewrite <- (step_buffer_size c s).
  apply IH; rewrite step_buffer_size;
    [exact Hpos | now apply step_within_capacity].
Qed.

(** C5: With a capacity c > 0 the queue is never longer than c: from
    any state whatsoever, a send that returns true leaves at most c
    queued messages, and in every state reached from a freshly
    constructed channel by any sequence of calls the queue holds at most
    c messages. *)
Theorem C5_capacity_invariant {T} (c : Z) :
  0 < c ->
  (forall (w : bool) (x : T) (s s' : channel T),
      buffer_size s = c ->
      send w x s = Returned true s' ->
      size s' <= c) /\
  (forall cs : list (call T), size (after cs (new_channel c)) <= c).
Proof.
  intros Hc. split.
  - intros w x s s' Hb H. apply send_returned in H.
    unfold send_locked in H.
    destruct (closed s || sealed s); inversion H; subst.
    unfold size. rewrite push_and_trim_queue.
    destruct (Z.gtb_spec (buffer_size s) 0); [|lia].
    apply pop_while_over_bound. lia.
  - intros cs. unfold size.
    apply (after_within_capacity cs (new_channel c)); simpl; [exact Hc|].
    rewrite QueueFacts.size_nil. lia.
Qed.

(** ** The overflow counter *)

Lemma size_t_sub_one (n : Z) : size_t_sub (n + 1) n = 1.
Proof.
  unfold size_t_sub. replace (n + 1 - n) with 1 by lia. reflexivity.
Qed.

Lemma size_t_sub_same (n : Z) : size_t_sub n n = 0.
Proof. unfold size_t_sub. now rewrite Z.sub_diag. Qed.

Lemma size_t_sub_wraps (a b : Z) :
  a < b -> b - a <= size_t_modulus ->
  size_t_sub a b = size_t_modulus - (b - a).
Proof.
  intros Hlt Hle. unfold size_t_sub.
  assert (M : 0 < size_t_modulus) by reflexivity.
  symmetry. apply (Z.mod_unique _ _ (-1)); lia.
Qed.

Lemma send_open {T} (x : T) (s : channel T) :
  closed s = false -> sealed s = false ->
  send false x s = Returned true (push_and_trim x s).
Proof.
  intros Hc He. rewrite send_nowait. unfold send_locked. now rewrite Hc, He.
Qed.

(** Sending into a full channel under the drop policy: the front element
    goes, the message is at the back, and the counter reads 1. *)
Lemma send_into_full {T} (x : T) (s : channel T) :
  closed s = false -> sealed s = false ->
  0 < buffer_size s -> size s = buffer_size s ->
  send false x s =
  Returned true
    (set_dropped_count_ 1 (set_queue (Queue.pop (queue s) ++ [x]) s)).
Proof.
  intros Hc He Hpos Hfull. rewrite send_open by assumption. f_equal.
  unfold push_and_trim, size in *.
  destruct (Z.gtb_spec (buffer_size s) 0); [|lia].
  destruct (queue s) as [|a q] eqn:Q.
  - rewrite QueueFacts.size_nil in Hfull. lia.
  - rewrite QueueFacts.size_push, Hfull, size_t_sub_one.
    unfold Queue.push. simpl app.
    rewrite pop_while_over_one.
    + reflexivity.
    + rewrite QueueFacts.size_cons.
      change (q ++ [x]) with (Queue.push x q). rewrite QueueFacts.size_push.
      rewrite QueueFacts.size_cons in Hfull. lia.
Qed.

(** A send that exactly fills the channel evicts nothing and the counter
    reads 0. *)
Lemma send_filling {T} (x : T) (s : channel T) :
  closed s = false -> sealed s = false ->
  size s + 1 = buffer_size s ->
  send false x s =
  Returned true (set_dropped_count_ 0 (set_queue (queue s ++ [x]) s)).
Proof.
  intros Hc He Hfit. rewrite send_open by assumption. f_equal.
  unfold push_and_trim, size in *.
  pose proof (QueueFacts.size_nonneg (queue s)).
  destruct (Z.gtb_spec (buffer_size s) 0); [|lia].
  rewrite QueueFacts.size_push, Hfit, size_t_sub_same.
  rewrite pop_while_over_fits; [reflexivity|].
  rewrite QueueFacts.size_push. lia.
Qed.

(** A send that leaves the channel short of its capacity evicts nothing,
    but the counter is the wrapped difference, not 0. *)
Lemma send_below_capacity {T} (x : T) (s : channel T) :
  closed s = false -> sealed s = false ->
  size s + 1 < buffer_size s -> buffer_size s <= size_t_max ->
  send false x s =
  Returned true
    (set_dropped_count_ (size_t_modulus - (buffer_size s - (size s + 1)))
       (set_queue (queue s ++ [x]) s)).
Proof.
  intros Hc He Hlt Hmax. rewrite send_open by assumption. f_equal.
  unfold push_and_trim, size, size_t_max in *.
  pose proof (QueueFacts.size_nonneg (queue s)).
  destruct (Z.gtb_spec (buffer_size s) 0); [|lia].
  rewrite QueueFacts.size_push, size_t_sub_wraps by lia.
  rewrite pop_while_over_fits; [reflexivity|].
  rewrite QueueFacts.size_push. lia.
Qed.

(** C1: Capacity 2, drop policy, three sends A, B, C on a fresh channel,
    with dropped_count() read after each.  The third send finds the
    channel full, evicts exactly A and the counter reads 1; the second
    send fills the channel and the counter reads 0; but after the first
    send, which leaves one free slot, the counter reads 2^64 - 1 where
    the specification promises 0. *)
Theorem C1_drop_count_after_each_send :
  let A := 10%nat in
  let B := 11%nat in
  let C := 12%nat in
  let cs := [Send false A; DroppedCount;
             Send false B; DroppedCount;
             Send false C; DroppedCount] in
  replies cs (new_channel 2) =
    [Sent true; Dropped (Some 18446744073709551615);
     Sent true; Dropped (Some 0);
     Sent true; Dropped (Some 1)] /\
  queue (after cs (new_channel 2)) = [B; C].
Proof. split; vm_compute; reflexivity. Qed.

(** ** Capacity 0 *)

(** Under the drop policy a capacity-0 channel is an unbounded FIFO. *)
Lemma send_unbounded {T} (x : T) (s : channel T) :
  closed s = false -> sealed s = false -> buffer_size s = 0 ->
  send false x s =
  Returned true (set_dropped_count_ 0 (set_queue (queue s ++ [x]) s)).
Proof.
  intros Hc He Hb. rewrite send_open by assumption. f_equal.
  unfold push_and_trim. now rewrite Hb.
Qed.

(** C2: On a channel of capacity 0 a send with wait_while_full = true
    does wait: while the channel is open the caller is parked whatever
    the queue holds, and once the channel is sealed or closed the call
    returns false.  Such a send never succeeds. *)
Theorem C2_blocking_send_on_capacity_zero {T} (x : T) (q : list T)
    (c e : bool) (d : option Z) :
  send true x (mk_channel q c e d 0) =
  if c || e then Returned false (mk_channel q c e d 0) else Suspended.
Proof.
  unfold send, send_locked, cv_wait. simpl.
  pose proof (QueueFacts.size_nonneg q) as Hq.
  destruct (Z.geb_spec (Queue.size q) 0); [|lia].
  destruct (Z.ltb_spec (Queue.size q) 0); [lia|].
  now destruct c, e.
Qed.

(** ** The counter before the first successful send *)

Lemma step_dropped_unset {T} (c : call T) (s : channel T) :
  is_sent_ok (fst (perform c s)) = false ->
  dropped_count (step c s) = dropped_count s.
Proof.
  intros H. destruct c; unfold step, perform in *; simpl; auto.
  - unfold close. now destruct (closed s).
  - unfold seal. now destruct (closed s || sealed s).
  - destruct (send wait_while_full x s) as [|ok s'] eqn:E; [reflexivity|].
    simpl in H. destruct ok; [discriminate|].
    apply send_returned in E. unfold send_locked in E.
    destruct (closed s || sealed s); inversion E; reflexivity.
  - destruct (recv wait s) as [|m s'] eqn:E; [reflexivity|].
    apply recv_returned in E. unfold recv_locked in E.
    repeat match type of E with
           | (if ?b then _ else _) = _ => destruct b
           end; inversion E; reflexivity.
Qed.

(** C7: The constructor does not initialise the overflow counter: on a
    freshly constructed channel, and for as long as no send has
    succeeded, dropped_count() reads a member that was never assigned
    (an indeterminate value), not a defined 0. *)
Theorem C7_dropped_count_unset_until_first_send {T} (c : Z)
    (cs : list (call T)) :
  forallb (fun r => negb (is_sent_ok r)) (replies cs (new_channel c)) = true ->
  dropped_count (after cs (new_channel c)) = None.
Proof.
  assert (G : forall s : channel T,
             forallb (fun r => negb (is_sent_ok r)) (replies cs s) = true ->
             dropped_count (after cs s) = dropped_count s).
  { induction cs as [|a cs IH]; intros s H; [reflexivity|].
    rewrite replies_cons in H. simpl in H.
    apply andb_true_iff in H. destruct H as [Ha Hcs].
    rewrite after_cons, IH by exact Hcs.
    apply step_dropped_unset. now apply negb_true_iff. }
  intros H. now rewrite G.
Qed.

(** ** recv *)

Lemma recv_front {T} (w : bool) (a : T) (q : list T) (s : channel T) :
  closed s = false -> queue s = a :: q ->
  recv w s = Returned (Some a) (set_queue q s).
Proof.
  intros Hc Hq. unfold recv, recv_locked, cv_wait. rewrite Hc, Hq. simpl.
  rewrite andb_false_r. now destruct (negb (sealed s) && w).
Qed.

Lemma recv_sealed_empty {T} (w : bool) (s : channel T) :
  closed s = false -> sealed s = true -> queue s = [] ->
  recv w s = Returned None (set_closed true s).
Proof.
  intros Hc He Hq. rewrite recv_sealed by exact He.
  unfold recv_locked. now rewrite Hc, He, Hq.
Qed.

(** Polling an open, empty channel fails at once and changes nothing;
    a waiting recv parks there. *)
Lemma recv_open_empty {T} (w : bool) (s : channel T) :
  closed s = false -> sealed s = false -> queue s = [] ->
  recv w s = if w then Suspended else Returned None s.
Proof.
  intros Hc He Hq. unfold recv, recv_locked, cv_wait. rewrite Hc, He, Hq.
  now destruct w.
Qed.

(** As many receives as there are queued messages hand them out front
    first and leave the queue empty. *)
Lemma drain_all {T} (w : bool) (q : list T) :
  forall s : channel T,
    closed s = false -> queue s = q ->
    replies (repeat (Recv w) (length q)) s
      = map (fun m => Received (Some m)) q /\
    after (repeat (Recv w) (length q)) s = set_queue [] s.
Proof.
  induction q as [|a q IH]; intros s Hc Hq.
  - split; [reflexivity|]. simpl length. simpl repeat. rewrite after_nil.
    destruct s; simpl in *; now subst.
  - simpl repeat. rewrite replies_cons, after_cons.
    unfold step, perform. rewrite (recv_front w a q s Hc Hq). simpl.
    destruct (IH (set_queue q s)) as [Hr Ha]; [exact Hc | reflexivity |].
    rewrite Hr, Ha. split; reflexivity.
Qed.

Lemma recvs_when_closed {T} (w : bool) (n : nat) (s : channel T) :
  closed s = true ->
  replies (repeat (Recv w) n) s = repeat (Received None) n.
Proof.
  revert s. induction n as [|n IH]; intros s Hc; [reflexivity|].
  simpl repeat. rewrite replies_cons. unfold step, perform.
  rewrite recv_closed by exact Hc. simpl. now rewrite IH.
Qed.

Lemma recvs_when_drained {T} (w : bool) (n : nat) (s : channel T) :
  closed s = false -> sealed s = true -> queue s = [] ->
  replies (repeat (Recv w) n) s = repeat (Received None) n.
Proof.
  intros Hc He Hq. destruct n as [|n]; [reflexivity|].
  simpl repeat. rewrite replies_cons. unfold step, perform.
  rewrite recv_sealed_empty by assumption. simpl.
  now rewrite recvs_when_closed.
Qed.

Lemma closed_while_draining {T} (w : bool) (q : list T) :
  forall (s : channel T) (k : nat),
    closed s = false -> sealed s = true -> queue s = q ->
    closed (after (repeat (Recv w) k) s) = (length q <? k)%nat.
Proof.
  induction q as [|a q IH]; intros s k Hc He Hq.
  - destruct k as [|k]; [exact Hc|].
    simpl repeat. rewrite after_cons. unfold step, perform.
    rewrite recv_sealed_empty by assumption. simpl.
    now apply after_closed.
  - destruct k as [|k]; [exact Hc|].
    simpl repeat. rewrite after_cons. unfold step, perform.
    rewrite (recv_front w a q s Hc Hq). simpl snd.
    now rewrite (IH (set_queue q s) k).
Qed.

(** C3: seal() on an open channel holding n messages, followed by
    receives only (waiting or polling): the first n receives succeed and
    return the queued messages front first, every receive after them
    fails, and is_closed() is false after each of the first n receives
    (and before them) and true from the (n+1)-th on, which is the one
    that finds the channel sealed and empty and closes it. *)
Theorem C3_seal_drain_close {T} (w : bool) (s : channel T) :
  closed s = false -> sealed s = false ->
  let n := length (queue s) in
  (forall extra : nat,
      replies (repeat (Recv w) (n + extra)) (seal s)
      = map (fun m => Received (Some m)) (queue s)
        ++ repeat (Received None) extra) /\
  (forall k : nat,
      is_closed (after (repeat (Recv w) k) (seal s)) = (n <? k)%nat) /\
  recv w (after (repeat (Recv w) n) (seal s))
  = Returned None (set_closed true (set_queue [] (seal s))).
Proof.
  intros Hc He n. rewrite (seal_open s Hc He).
  set (t := set_sealed true s).
  assert (Tc : closed t = false) by exact Hc.
  assert (Te : sealed t = true) by reflexivity.
  assert (Tq : queue t = queue s) by reflexivity.
  destruct (drain_all w (queue s) t Tc Tq) as [Hr Ha].
  split; [|split].
  - intros extra. rewrite repeat_app, replies_app. fold n in Hr, Ha.
    rewrite Hr, Ha. f_equal.
    now apply recvs_when_drained.
  - intros k. unfold is_closed. now apply closed_while_draining.
  - fold n in Ha. rewrite Ha. now apply recv_sealed_empty.
Qed.

(** ** FIFO order *)

(** A send that finds room (or any drop-policy send on a capacity-0
    channel) puts its message at the back and evicts nothing. *)
Lemma send_with_room {T} (w : bool) (x : T) (s : channel T) :
  closed s = false -> sealed s = false ->
  size s + 1 <= buffer_size s \/ (buffer_size s = 0 /\ w = false) ->
  exists s',
    send w x s = Returned true s' /\
    queue s' = queue s ++ [x] /\
    closed s' = false /\ sealed s' = false /\
    buffer_size s' = buffer_size s.
Proof.
  intros Hc He Hroom. exists (push_and_trim x s).
  destruct (push_and_trim_flags x s) as (Fc & Fe & Fb).
  rewrite Fc, Fe, Fb, push_and_trim_queue.
  unfold size in Hroom. pose proof (QueueFacts.size_nonneg (queue s)).
  repeat split; auto.
  - unfold send, send_locked, cv_wait. rewrite Hc, He. simpl.
    destruct Hroom as [Hroom|[Hb Hw]].
    + destruct (Z.geb_spec (Queue.size (queue s)) (buffer_size s)); [lia|].
      now rewrite andb_false_r.
    + now rewrite Hw.
  - destruct Hroom as [Hroom|[Hb Hw]].
    + destruct (Z.gtb_spec (buffer_size s) 0); [|lia].
      apply pop_while_over_fits.
      change (queue s ++ [x]) with (Queue.push x (queue s)).
      rewrite QueueFacts.size_push. lia.
    + now rewrite Hb.
Qed.



(** The same over any interleaving of calls: what went into the queue,
    after what it held at the start, is what came out of its front
    followed by what it holds at the end. *)
Lemma firstn_of_suffix {T} (l gone rest : list T) :
  l = gone ++ rest ->
  firstn (length l - length rest) l ++ rest = l.
Proof.
  intros ->. rewrite length_app.
  replace (length gone + length rest - length rest)%nat
    with (length gone) by lia.
  rewrite firstn_app, Nat.sub_diag, firstn_all. simpl.
  now rewrite app_nil_r.
Qed.

Lemma push_and_trim_suffix {T} (x : T) (s : channel T) :
  exists gone, queue s ++ [x] = gone ++ queue (push_and_trim x s).
Proof.
  rewrite push_and_trim_queue. unfold Queue.push.
  destruct (buffer_size s >? 0).
  - apply pop_while_over_suffix.
  - now exists [].
Qed.

Lemma step_ledger {T} (c : call T) (s : channel T) :
  queue s ++ enqueued c s
  = evicted c s ++ delivered c s ++ queue (step c s).
Proof.
  destruct c; unfold enqueued, evicted, delivered, step;
    try (simpl; now rewrite app_nil_r).
  - simpl. rewrite app_nil_r. unfold close. now destruct (closed s).
  - simpl. rewrite app_nil_r. unfold seal.
    now destruct (closed s || sealed s).
  - simpl perform.
    destruct (send wait_while_full x s) as [|ok s'] eqn:E;
      [simpl; now rewrite app_nil_r|].
    apply send_returned in E. unfold send_locked in E.
    destruct (closed s || sealed s); inversion E; subst; simpl;
      [now rewrite app_nil_r|].
    symmetry. destruct (push_and_trim_suffix x s) as [gone Hg].
    now apply firstn_of_suffix with (gone := gone).
  - simpl perform.
    destruct (recv wait s) as [|m s'] eqn:E;
      [simpl; now rewrite app_nil_r|].
    apply recv_returned in E. unfold recv_locked in E.
    rewrite app_nil_r. simpl.
    destruct (closed s); [inversion E; now subst|].
    destruct (sealed s && Queue.empty (queue s)); [inversion E; now subst|].
    destruct (queue s) as [|a q] eqn:Q; simpl in E; inversion E; subst.
    + now rewrite Q.
    + reflexivity.
Qed.

Lemma fifo_ledger {T} (cs : list (call T)) :
  forall s : channel T,
    queue s ++ all_enqueued cs s = all_removed cs s ++ queue (after cs s).
Proof.
  induction cs as [|c cs IH]; intros s.
  - simpl. now rewrite app_nil_r.
  - simpl. rewrite after_cons, app_assoc, step_ledger.
    rewrite <- !app_assoc. now rewrite IH.
Qed.

Lemma removed_without_eviction {T} (cs : list (call T)) :
  forall s : channel T,
    all_evicted cs s = [] -> all_removed cs s = all_delivered cs s.
Proof.
  induction cs as [|c cs IH]; intros s H; [reflexivity|].
  simpl in *. apply app_eq_nil in H. destruct H as [H1 H2].
  now rewrite H1, IH.
Qed.

Lemma fifo_interleaved {T} (cs : list (call T)) (s : channel T) :
  all_evicted cs s = [] ->
  queue s ++ all_enqueued cs s = all_delivered cs s ++ queue (after cs s).
Proof.
  intros H. rewrite fifo_ledger. now rewrite removed_without_eviction.
Qed.

(** ** The theorems at concrete channels *)

Lemma C3_seal_drain_close_witness :
  let s0 := mk_channel [1; 2; 3]%nat false false (Some 0) 3 in
  closed s0 = false /\ sealed s0 = false /\
  replies (repeat (Recv true) 4) (seal s0)
  = [Received (Some 1%nat); Received (Some 2%nat); Received (Some 3%nat);
     Received None] /\
  is_closed (after (repeat (Recv true) 3) (seal s0)) = false /\
  is_closed (after (repeat (Recv true) 4) (seal s0)) = true.
Proof.
  intros s0.
  destruct (C3_seal_drain_close true s0 eq_refl eq_refl) as (Hr & Hk & _).
  split; [reflexivity|]. split; [reflexivity|].
  split; [exact (Hr 1%nat)|].
  split; [exact (Hk 3%nat) | exact (Hk 4%nat)].
Defined.

Lemma C5_capacity_invariant_witness :
  0 < 2 /\
  size (after [Send false 1%nat; Send false 2%nat; Send false 3%nat;
               Recv true; Send true 4%nat]
              (new_channel 2)) <= 2.
Proof.
  split; [reflexivity|].
  apply (proj2 (C5_capacity_invariant (T := nat) 2 eq_refl)).
Defined.


Lemma C7_dropped_count_unset_until_first_send_witness :
  let cs := [DroppedCount; Recv false; Seal; Send false 5%nat; IsSealed] in
  forallb (fun r => negb (is_sent_ok r)) (replies cs (new_channel 1)) = true /\
  dropped_count (after cs (new_channel 1)) = None.
Proof.
  intros cs. split; [reflexivity|].
  exact (C7_dropped_count_unset_until_first_send 1 cs eq_refl).
Defined.

Lemma C8_send_rejects_iff_not_open_witness :
  let s0 := mk_channel [1; 2]%nat false false (Some 0) 2 in
  let s1 := mk_channel [2; 3]%nat false false (Some 1) 2 in
  let sealed0 := mk_channel [1; 2]%nat false true (Some 0) 2 in
  let closed0 := mk_channel [1; 2]%nat true false (Some 0) 2 in
  (closed sealed0 = true \/ sealed sealed0 = true) /\
  send true 3%nat sealed0 = Returned false sealed0 /\
  (closed closed0 = true \/ sealed closed0 = true) /\
  send true 3%nat closed0 = Returned false closed0 /\
  closed s0 = false /\ sealed s0 = false /\
  send true 3%nat s0 = Suspended /\
  send false 3%nat s0 = Returned true s1 /\
  (true = false <-> closed s0 = true \/ sealed s0 = true) /\
  exists gone kept,
    queue s0 = gone ++ kept /\ queue s1 = kept ++ [3%nat] /\
    closed s1 = closed s0 /\ sealed s1 = sealed s0 /\
    buffer_size s1 = buffer_size s0.
Proof.
  intros s0 s1 sealed0 closed0.
  destruct (C8_send_rejects_iff_not_open true 3%nat sealed0)
    as (Hsealed & _ & _).
  destruct (C8_send_rejects_iff_not_open true 3%nat closed0)
    as (Hclosed & _ & _).
  destruct (C8_send_rejects_iff_not_open true 3%nat s0)
    as (_ & Hparks & _).
  destruct (C8_send_rejects_iff_not_open false 3%nat s0)
    as (_ & Hopen & Hret).
  destruct (Hret true s1 (Hopen eq_refl eq_refl)) as (Hiff & _ & Hok).
  split; [right; reflexivity|].
  split; [exact (Hsealed (or_intror eq_refl))|].
  split; [left; reflexivity|].
  split; [exact (Hclosed (or_introl eq_refl))|].
  split; [reflexivity|]. split; [reflexivity|].
  split; [exact (Hparks eq_refl eq_refl)|].
  split; [exact (Hopen eq_refl eq_refl)|].
  split; [exact Hiff | exact (Hok eq_refl)].
Defined.

Lemma C9_state_never_regresses_witness :
  let s0 := mk_channel [7%nat] true true None 1 in
  let cs := [Send false 1%nat; Seal; Recv true; Recv false; Close;
             IsClosed; Send true 2%nat] in
  closed s0 = true /\ sealed s0 = true /\
  advances (phase_of s0) (phase_of (after cs s0)) = true /\
  closed (after cs s0) = true /\ sealed (after cs s0) = true.
Proof.
  intros s0 cs.
  destruct (C9_state_never_regresses cs s0) as (Hp & Hc & He).
  split; [reflexivity|]. split; [reflexivity|].
  split; [exact Hp|]. split; [exact (Hc eq_refl) | exact (He eq_refl)].
Defined.

Lemma C10_close_seal_idempotent_witness :
  let s0 := mk_channel [7%nat] true false (Some 0) 1 in
  closed s0 = true /\ (closed s0 = true \/ sealed s0 = true) /\
  close s0 = s0 /\ seal s0 = s0 /\ sealed (seal (close s0)) = false.
Proof.
  intros s0.
  destruct (C10_close_seal_idempotent s0) as (_ & _ & _ & Hs & Hc & He).
  split; [reflexivity|]. split; [left; reflexivity|].
  split; [exact (Hc eq_refl)|].
  split; [exact (He (or_introl eq_refl)) | exact Hs].
Defined.

(** * Further properties of the member functions *)

(** ** When a call parks *)

(** X1: send parks exactly when it was called with wait_while_full = true
    on a channel that is neither closed nor sealed and whose queue holds
    at least buffer_size messages.  A drop-policy send never parks. *)
Theorem X1_send_parks_iff {T} (w : bool) (x : T) (s : channel T) :
  send w x s = Suspended <->
  w = true /\ closed s = false /\ sealed s = false /\ buffer_size s <= size s.
Proof.
  unfold send, send_locked, cv_wait, size.
  destruct w, (closed s), (sealed s); simpl;
    try (split; [discriminate | intros (? & ? & ? & ?); discriminate]).
  destruct (Z.geb_spec (Queue.size (queue s)) (buffer_size s));
    destruct (Z.ltb_spec (Queue.size (queue s)) (buffer_size s));
    try lia.
  - split; [intros _; repeat split; lia | reflexivity].
  - split; [discriminate | intros (_ & _ & _ & ?); lia].
Qed.

(** X2: recv parks exactly when it was called with wait = true on a
    channel that is neither closed nor sealed and whose queue is empty.
    A polling recv never parks, and no recv parks on a sealed channel. *)
Theorem X2_recv_parks_iff {T} (w : bool) (s : channel T) :
  recv w s = Suspended <->
  w = true /\ closed s = false /\ sealed s = false /\ queue s = [].
Proof.
  unfold recv, recv_locked, cv_wait.
  destruct w, (closed s), (sealed s), (queue s) as [|a q]; simpl;
    split; try discriminate; try reflexivity;
    try (intros (? & ? & ? & ?); discriminate).
  intros _. repeat split.
Qed.

(** ** What recv returns *)

(** X3: recv hands out a message exactly when the channel is not closed
    and the queue is not empty, whether or not the channel is sealed and
    in either variant.  The message is the front of the queue, and the
    call changes nothing but the queue, which loses its front. *)
Theorem X3_recv_delivers_iff {T} (w : bool) (m : T) (s s' : channel T) :
  recv w s = Returned (Some m) s' <->
  closed s = false /\ exists q, queue s = m :: q /\ s' = set_queue q s.
Proof.
  split.
  - intros H. apply recv_returned in H. unfold recv_locked in H.
    destruct (closed s); [discriminate|]. split; [reflexivity|].
    destruct (queue s) as [|a q] eqn:Q.
    + simpl in H. destruct (sealed s); simpl in H; discriminate.
    + rewrite andb_false_r in H. simpl in H. inversion H; subst.
      exists q. split; reflexivity.
  - intros (Hc & q & Hq & ->). now apply recv_front.
Qed.

(** X4: the three ways in which recv fails.  It returns failure exactly
    when (1) the channel is closed, and then nothing changes; or (2) the
    channel is sealed, not closed, and empty, and then the call sets the
    closed flag and nothing else; or (3) the channel is open and empty
    and the call is a poll, and then nothing changes. *)
Theorem X4_recv_fails_iff {T} (w : bool) (s s' : channel T) :
  recv w s = Returned None s' <->
  (closed s = true /\ s' = s) \/
  (closed s = false /\ sealed s = true /\ queue s = [] /\
   s' = set_closed true s) \/
  (closed s = false /\ sealed s = false /\ queue s = [] /\ w = false /\
   s' = s).
Proof.
  split.
  - intros H. apply recv_returned in H as H'. unfold recv_locked in H'.
    destruct (closed s) eqn:C; [inversion H'; auto|]. right.
    destruct (queue s) as [|a q] eqn:Q.
    + destruct (sealed s) eqn:E; simpl in H'; inversion H'; subst.
      * left. auto.
      * right. repeat split; auto.
        destruct w; [|reflexivity].
        unfold recv, cv_wait in H. rewrite C, E, Q in H. discriminate.
    + rewrite andb_false_r in H'. simpl in H'. discriminate.
  - intros [(C & ->)|[(C & E & Q & ->)|(C & E & Q & -> & ->)]].
    + now apply recv_closed.
    + now apply recv_sealed_empty.
    + now rewrite recv_open_empty.
Qed.

(** ** Closed and sealed channels *)

Lemma step_when_closed {T} (c : call T) (s : channel T) :
  closed s = true -> step c s = s.
Proof.
  intros H. destruct c; unfold step, perform; simpl; try reflexivity.
  - now apply close_when_closed.
  - apply seal_when_done. now left.
  - now rewrite send_closed.
  - now rewrite recv_closed.
Qed.

Lemma after_when_closed {T} (cs : list (call T)) (s : channel T) :
  closed s = true -> after cs s = s.
Proof.
  intros H. induction cs as [|c cs IH]; [reflexivity|].
  now rewrite after_cons, step_when_closed.
Qed.

(** X5: Closed is a dead end for the whole object, not only for its
    flags: on a channel whose closed flag is set, no sequence of calls
    (close, seal, send, recv in any variant, the accessors) changes any
    field.  In particular messages left in the queue stay there and
    size() and is_empty() keep reporting them. *)
Theorem X5_closed_channel_is_frozen {T} (cs : list (call T))
    (s : channel T) :
  closed s = true ->
  after cs s = s /\
  size (after cs s) = size s /\
  is_empty (after cs s) = is_empty s.
Proof.
  intros H. now rewrite after_when_closed.
Qed.

Lemma perform_not_parked {T} (c : call T) (s : channel T) :
  closed s = true \/ sealed s = true -> fst (perform c s) <> Parked.
Proof.
  intros H. destruct c; simpl; try discriminate.
  - destruct H as [H|H];
      [rewrite send_closed | rewrite send_sealed]; try exact H; discriminate.
  - destruct H as [H|H].
    + rewrite recv_closed by exact H. discriminate.
    + rewrite recv_sealed by exact H. discriminate.
Qed.

(** X6: once a channel is sealed or closed nobody waits on it any more:
    whatever calls follow, in whatever variants, none of them parks its
    caller. *)
Theorem X6_no_parking_once_sealed_or_closed {T} (cs : list (call T))
    (s : channel T) :
  closed s = true \/ sealed s = true ->
  ~ In Parked (replies cs s).
Proof.
  revert s. induction cs as [|c cs IH]; intros s H; [intros []|].
  rewrite replies_cons. intros [Hin|Hin].
  - now apply (perform_not_parked c s H).
  - apply (IH (step c s)); [|exact Hin].
    destruct H as [H|H]; [left; now apply step_closed
                         | right; now apply step_sealed].
Qed.

Lemma enqueued_when_sealed {T} (c : call T) (s : channel T) :
  closed s = true \/ sealed s = true ->
  enqueued c s = [] /\ evicted c s = [].
Proof.
  intros H. destruct c; unfold enqueued, evicted; simpl; auto.
  destruct H as [H|H];
    [rewrite send_closed | rewrite send_sealed]; try exact H; auto.
Qed.

Lemma nothing_enqueued_when_sealed {T} (cs : list (call T)) :
  forall s : channel T,
    closed s = true \/ sealed s = true ->
    all_enqueued cs s = [] /\ all_evicted cs s = [].
Proof.
  induction cs as [|c cs IH]; intros s H; [split; reflexivity|].
  simpl. destruct (enqueued_when_sealed c s H) as [-> ->].
  apply IH. destruct H as [H|H];
    [left; now apply step_closed | right; now apply step_sealed].
Qed.

(** X7: sealing freezes the content.  On a sealed (or closed) channel,
    over any sequence of calls, no send puts anything into the queue and
    nothing is evicted; the queue as it was is exactly the messages that
    the receives handed out, in that order, followed by the queue as it
    is at the end. *)
Theorem X7_sealed_queue_only_drains {T} (cs : list (call T))
    (s : channel T) :
  closed s = true \/ sealed s = true ->
  all_enqueued cs s = [] /\
  all_evicted cs s = [] /\
  queue s = all_delivered cs s ++ queue (after cs s).
Proof.
  intros H. destruct (nothing_enqueued_when_sealed cs s H) as [He Hv].
  split; [exact He|]. split; [exact Hv|].
  rewrite <- (fifo_interleaved cs s Hv), He. now rewrite app_nil_r.
Qed.

(** ** Order of messages *)

(** X8: the queue is a FIFO over any interleaving of calls, in either
    policy and with or without overflow.  Take what the queue held at the
    start followed by the messages of the sends that returned true, in
    call order: that list is what left the front of the queue (handed
    out by a recv or thrown away by the overflow loop of a send), in the
    order it left, followed by what the queue holds at the end.  Nothing
    is reordered, duplicated or lost otherwise. *)
Theorem X8_fifo_over_any_interleaving {T} (cs : list (call T))
    (s : channel T) :
  queue s ++ all_enqueued cs s = all_removed cs s ++ queue (after cs s).
Proof. apply fifo_ledger. Qed.

(** ** send *)

(** X9: a send with wait_while_full = true never throws a message away:
    when it returns true the queue is the old queue with the message
    appended, and it is no longer than buffer_size. *)
Theorem X9_blocking_send_never_evicts {T} (x : T) (s s' : channel T) :
  send true x s = Returned true s' ->
  queue s' = queue s ++ [x] /\ size s' <= buffer_size s.
Proof.
  intros H.
  assert (P : send true x s <> Suspended) by (rewrite H; discriminate).
  apply send_returned in H. unfold send_locked in H.
  destruct (closed s) eqn:C; [discriminate|].
  destruct (sealed s) eqn:E; [discriminate|].
  simpl in H. inversion H; subst; clear H.
  assert (R : Queue.size (queue s) < buffer_size s).
  { destruct (Z.ltb_spec (Queue.size (queue s)) (buffer_size s)) as [L|L];
      [exact L|].
    exfalso. apply P. unfold send, cv_wait. rewrite C, E. simpl.
    destruct (Z.geb_spec (Queue.size (queue s)) (buffer_size s)); [|lia].
    destruct (Z.ltb_spec (Queue.size (queue s)) (buffer_size s)); [lia|].
    reflexivity. }
  pose proof (QueueFacts.size_nonneg (queue s)).
  unfold size. rewrite push_and_trim_queue.
  destruct (Z.gtb_spec (buffer_size s) 0); [|lia].
  rewrite pop_while_over_fits
    by (rewrite QueueFacts.size_push; lia).
  split; [reflexivity|]. rewrite QueueFacts.size_push. lia.
Qed.

(** The overflow loop keeps the newest [bs] elements. *)
Lemma pop_while_over_skipn {T} (bs : Z) (q : list T) :
  0 <= bs ->
  pop_while_over bs q = skipn (length q - Z.to_nat bs) q.
Proof.
  intros Hbs. induction q as [|a q IH]; rewrite pop_while_over_unfold.
  - now destruct (_ >? _).
  - destruct (Z.gtb_spec (Queue.size (a :: q)) bs) as [G|G];
      unfold Queue.size in G; simpl length in G.
    + replace (length (a :: q) - Z.to_nat bs)%nat
        with (S (length q - Z.to_nat bs)) by (simpl length; lia).
      exact IH.
    + replace (length (a :: q) - Z.to_nat bs)%nat with 0%nat
        by (simpl length; lia).
      reflexivity.
Qed.

(** X10: drop-oldest keeps the newest messages.  A drop-policy send on
    an open channel of capacity buffer_size > 0 returns true and leaves
    in the queue the last buffer_size elements of the old queue followed
    by the message (all of them when there are fewer). *)
Theorem X10_overflow_keeps_newest {T} (x : T) (s : channel T) :
  closed s = false -> sealed s = false -> 0 < buffer_size s ->
  exists s',
    send false x s = Returned true s' /\
    queue s' = skipn (length (queue s ++ [x]) - Z.to_nat (buffer_size s))
                     (queue s ++ [x]).
Proof.
  intros Hc He Hpos. exists (push_and_trim x s).
  split; [now apply send_open|].
  rewrite push_and_trim_queue.
  destruct (Z.gtb_spec (buffer_size s) 0); [|lia].
  apply pop_while_over_skipn. lia.
Qed.

(** X11: when the send leaves the queue full, the counter is right.  On
    an open channel of capacity buffer_size > 0 whose queue, with the
    message added, reaches or exceeds the capacity (and whose length
    fits a size_t), a drop-policy send leaves exactly buffer_size
    messages and dropped_count() is the number of messages it removed. *)
Theorem X11_dropped_count_when_full {T} (x : T) (s : channel T) :
  closed s = false -> sealed s = false ->
  0 < buffer_size s ->
  buffer_size s <= size s + 1 -> size s + 1 <= size_t_max ->
  exists s',
    send false x s = Returned true s' /\
    size s' = buffer_size s /\
    dropped_count s' = Some (size s + 1 - size s').
Proof.
  intros Hc He Hpos Hge Hmax. exists (push_and_trim x s).
  split; [now apply send_open|].
  assert (Hsz : size (push_and_trim x s) = buffer_size s).
  { unfold size in *. rewrite push_and_trim_queue.
    destruct (Z.gtb_spec (buffer_size s) 0); [|lia].
    rewrite pop_while_over_skipn by lia.
    unfold Queue.size in *. rewrite length_skipn.
    unfold Queue.push in *. rewrite length_app in *. simpl length in *.
    lia. }
  split; [exact Hsz|].
  rewrite push_and_trim_dropped, Hsz.
  destruct (Z.gtb_spec (buffer_size s) 0); [|lia].
  f_equal. unfold size_t_sub, size, size_t_max in *.
  rewrite QueueFacts.size_push.
  apply Z.mod_small. lia.
Qed.

(** On a channel within its capacity a successful send either appends,
    or (drop policy, channel full) appends and removes the front. *)
Lemma send_within_capacity {T} (w : bool) (x : T) (s s' : channel T) :
  0 < buffer_size s -> size s <= buffer_size s ->
  send w x s = Returned true s' ->
  (size s < buffer_size s /\ queue s' = queue s ++ [x]) \/
  (size s = buffer_size s /\ w = false /\
   queue s' = Queue.pop (queue s) ++ [x]).
Proof.
  intros Hpos Hinv H.
  assert (Hopen : closed s = false /\ sealed s = false).
  { apply send_returned in H. unfold send_locked in H.
    destruct (closed s), (sealed s); simpl in H; try discriminate. auto. }
  destruct Hopen as [Hc He].
  destruct (Z.lt_ge_cases (size s) (buffer_size s)) as [Hlt|Hge].
  - left. split; [exact Hlt|].
    destruct (send_with_room w x s Hc He) as (t & Ht & Hq & _);
      [left; lia|].
    rewrite Ht in H. inversion H; subst. exact Hq.
  - right. assert (Hfull : size s = buffer_size s) by lia.
    destruct w.
    + exfalso. unfold send, cv_wait, size in *. rewrite Hc, He in H.
      simpl in H.
      destruct (Z.geb_spec (Queue.size (queue s)) (buffer_size s)); [|lia].
      destruct (Z.ltb_spec (Queue.size (queue s)) (buffer_size s)); [lia|].
      discriminate.
    + rewrite (send_into_full x s Hc He Hpos Hfull) in H.
      inversion H; subst. auto.
Qed.

(** X12: at most one message goes per send.  On a channel built by the
    constructor with a capacity c > 0, after any sequence of calls, a
    send that returns true either just appends its message (the channel
    was not full) or, under the drop policy on a full channel, appends
    it and removes exactly the front element. *)
Theorem X12_send_evicts_at_most_one {T} (c : Z) (cs : list (call T))
    (w : bool) (x : T) (s' : channel T) :
  0 < c ->
  let s := after cs (new_channel c) in
  send w x s = Returned true s' ->
  (size s < c /\ queue s' = queue s ++ [x]) \/
  (size s = c /\ w = false /\ queue s' = Queue.pop (queue s) ++ [x]).
Proof.
  intros Hc s H.
  assert (Hb : buffer_size s = c) by apply after_buffer_size.
  rewrite <- Hb. apply send_within_capacity; [lia | | exact H].
  rewrite Hb. unfold s, size.
  apply (after_within_capacity cs (new_channel c)); simpl; [exact Hc|].
  rewrite QueueFacts.size_nil. lia.
Qed.

(** ** The accessors *)

(** X13: on a channel built by the constructor, after any sequence of
    calls, is_full() is true exactly when the capacity is not 0 and the
    queue holds exactly that many messages; with capacity 0 it is never
    true. *)
Theorem X13_is_full_means_at_capacity {T} (c : Z) (cs : list (call T)) :
  0 <= c ->
  let s := after cs (@new_channel T c) in
  is_full s = true <-> 0 < c /\ size s = c.
Proof.
  intros Hc s.
  assert (Hb : buffer_size s = c) by apply after_buffer_size.
  unfold is_full. rewrite Hb.
  destruct (Z.eqb_spec c 0) as [Hz|Hz].
  - split; [discriminate | lia].
  - assert (Hinv : size s <= c).
    { unfold s, size.
      apply (after_within_capacity cs (new_channel c)); simpl; [lia|].
      rewrite QueueFacts.size_nil. lia. }
    unfold size in *.
    destruct (Z.geb_spec (Queue.size (queue s)) c); split;
      try discriminate; try reflexivity; lia.
Qed.

(** X14: is_full() and the blocking send agree, capacity 0 apart.  On an
    open channel whose capacity is not 0, a send with
    wait_while_full = true parks exactly when is_full() is true. *)
Theorem X14_blocking_send_parks_iff_is_full {T} (x : T) (s : channel T) :
  buffer_size s <> 0 -> closed s = false -> sealed s = false ->
  (send true x s = Suspended <-> is_full s = true).
Proof.
  intros Hb Hc He. unfold send, send_locked, cv_wait, is_full.
  rewrite Hc, He. simpl.
  destruct (Z.eqb_spec (buffer_size s) 0); [contradiction|].
  destruct (Z.geb_spec (Queue.size (queue s)) (buffer_size s));
    destruct (Z.ltb_spec (Queue.size (queue s)) (buffer_size s));
    try lia; split; try discriminate; reflexivity.
Qed.

(** X15: for a channel that is not closed, is_empty() tells whether a
    recv gets a message: is_empty() is false exactly when recv (either
    variant) returns a message, and size() is then one less than before. *)
Theorem X15_recv_succeeds_iff_not_empty {T} (w : bool) (s : channel T) :
  closed s = false ->
  (is_empty s = false <->
   exists m s', recv w s = Returned (Some m) s' /\ size s' = size s - 1).
Proof.
  intros Hc. unfold is_empty, size. split.
  - destruct (queue s) as [|a q] eqn:Q; [discriminate|]. intros _.
    exists a, (set_queue q s). split; [now apply recv_front|].
    cbn [queue set_queue]. rewrite QueueFacts.size_cons. lia.
  - intros (m & s' & H & _). apply recv_returned in H.
    unfold recv_locked in H. rewrite Hc in H.
    destruct (queue s); [|reflexivity].
    destruct (sealed s); simpl in H; discriminate.
Qed.

(** ** Hand-over between callers *)

(** X16: a sender parked on a full channel gets through after one recv.
    On an open, full channel of capacity > 0 a send with
    wait_while_full = true parks; a recv (either variant) then takes the
    front message, and the same send, run again, returns true and leaves
    the remaining messages followed by its own. *)
Theorem X16_recv_releases_parked_sender {T} (w : bool) (x : T)
    (s : channel T) :
  closed s = false -> sealed s = false ->
  0 < buffer_size s -> size s = buffer_size s ->
  send true x s = Suspended /\
  exists a q s1 s2,
    queue s = a :: q /\
    recv w s = Returned (Some a) s1 /\
    send true x s1 = Returned true s2 /\
    queue s2 = q ++ [x].
Proof.
  intros Hc He Hpos Hfull. unfold size in Hfull. split.
  - unfold send, cv_wait. rewrite Hc, He. simpl.
    destruct (Z.geb_spec (Queue.size (queue s)) (buffer_size s)); [|lia].
    destruct (Z.ltb_spec (Queue.size (queue s)) (buffer_size s)); [lia|].
    reflexivity.
  - destruct (queue s) as [|a q] eqn:Q.
    { rewrite QueueFacts.size_nil in Hfull. lia. }
    rewrite QueueFacts.size_cons in Hfull.
    destruct (send_with_room true x (set_queue q s)) as (s2 & H2 & Hq2 & _);
      [exact Hc | exact He | left; unfold size; simpl; lia |].
    exists a, q, (set_queue q s), s2.
    split; [reflexivity|]. split; [now apply recv_front|].
    split; [exact H2 | exact Hq2].
Qed.

(** X17: a receiver waiting on an open, empty channel gets the next
    message.  There a recv with wait = true parks; once a send (either
    policy) has returned true, a recv (either variant) returns exactly
    the message of that send and leaves the queue empty again. *)
Theorem X17_send_releases_parked_receiver {T} (w w' : bool) (x : T)
    (s s1 : channel T) :
  closed s = false -> sealed s = false -> queue s = [] ->
  send w x s = Returned true s1 ->
  recv true s = Suspended /\
  exists s2, recv w' s1 = Returned (Some x) s2 /\ queue s2 = [].
Proof.
  intros Hc He Hq H. split; [now rewrite recv_open_empty|].
  apply send_returned in H. unfold send_locked in H.
  rewrite Hc, He in H. simpl in H. inversion H; subst; clear H.
  destruct (push_and_trim_flags x s) as (Fc & _ & _).
  destruct (push_and_trim_back x s) as (gone & kept & Hs & Hk).
  rewrite Hq in Hs. symmetry in Hs. apply app_eq_nil in Hs.
  destruct Hs as [-> ->]. simpl in Hk.
  exists (set_queue [] (push_and_trim x s)). split; [|reflexivity].
  apply recv_front; [now rewrite Fc | exact Hk].
Qed.

(** ** The counter and the capacity *)

(** X18: only a send that returns true writes the overflow counter.
    Over any sequence of calls none of which is a successful send
    (rejected or parked sends, receives, close, seal, the accessors)
    dropped_count() keeps its value. *)
Theorem X18_only_successful_send_sets_counter {T} (cs : list (call T))
    (s : channel T) :
  forallb (fun r => negb (is_sent_ok r)) (replies cs s) = true ->
  dropped_count (after cs s) = dropped_count s.
Proof.
  revert s. induction cs as [|a cs IH]; intros s H; [reflexivity|].
  rewrite replies_cons in H. simpl in H.
  apply andb_true_iff in H. destruct H as [Ha Hcs].
  rewrite after_cons, IH by exact Hcs.
  apply step_dropped_unset. now apply negb_true_iff.
Qed.

Lemma step_unbounded {T} (c : call T) (s : channel T) :
  buffer_size s = 0 ->
  dropped_count s = None \/ dropped_count s = Some 0 ->
  evicted c s = [] /\
  (dropped_count (step c s) = None \/ dropped_count (step c s) = Some 0).
Proof.
  intros Hb Hd. destruct c; unfold evicted, step; simpl; auto.
  - split; [reflexivity|]. unfold close. now destruct (closed s).
  - split; [reflexivity|]. unfold seal.
    now destruct (closed s || sealed s).
  - destruct (send wait_while_full x s) as [|ok t] eqn:E; simpl; auto.
    apply send_returned in E. unfold send_locked in E.
    destruct (closed s || sealed s); inversion E; subst; auto.
    rewrite push_and_trim_dropped, push_and_trim_queue, Hb. simpl.
    unfold Queue.push. rewrite Nat.sub_diag. auto.
  - split; [reflexivity|].
    destruct (recv wait s) as [|m t] eqn:E; simpl; auto.
    apply recv_returned in E. unfold recv_locked in E.
    repeat match type of E with
           | (if ?b then _ else _) = _ => destruct b
           end; inversion E; subst; exact Hd.
Qed.

(** X19: capacity 0 never drops.  On a channel built with capacity 0,
    over any sequence of calls, the overflow loop removes nothing,
    is_full() is false, and dropped_count() is either still unset or 0. *)
Theorem X19_capacity_zero_never_drops {T} (cs : list (call T)) :
  all_evicted cs (@new_channel T 0) = [] /\
  is_full (after cs (@new_channel T 0)) = false /\
  (dropped_count (after cs (@new_channel T 0)) = None \/
   dropped_count (after cs (@new_channel T 0)) = Some 0).
Proof.
  assert (G : forall s : channel T,
             buffer_size s = 0 ->
             dropped_count s = None \/ dropped_count s = Some 0 ->
             all_evicted cs s = [] /\
             (dropped_count (after cs s) = None \/
              dropped_count (after cs s) = Some 0)).
  { induction cs as [|c cs IH]; intros s Hb Hd; [auto|].
    destruct (step_unbounded c s Hb Hd) as [Hv Hd'].
    simpl all_evicted. rewrite Hv, after_cons. simpl.
    apply IH; [now rewrite step_buffer_size | exact Hd']. }
  destruct (G (new_channel 0) eq_refl (or_introl eq_refl)) as [Hv Hd].
  split; [exact Hv|]. split; [|exact Hd].
  unfold is_full. now rewrite after_buffer_size.
Qed.

(** X20: the capacity is fixed at construction: no sequence of calls
    changes buffer_size, so a channel built with capacity c keeps it. *)
Theorem X20_capacity_is_fixed {T} (c : Z) (cs : list (call T))
    (s : channel T) :
  buffer_size (after cs s) = buffer_size s /\
  buffer_size (after cs (@new_channel T c)) = c.
Proof. split; apply after_buffer_size. Qed.

(** ** The further properties at concrete channels *)

Lemma X5_closed_channel_is_frozen_witness :
  let s0 := mk_channel [4; 5]%nat true false (Some 1) 2 in
  let cs := [Recv true; Send false 6%nat; Seal; Close; Recv false;
             Send true 7%nat] in
  closed s0 = true /\ after cs s0 = s0 /\ size (after cs s0) = 2.
Proof.
  intros s0 cs.
  destruct (X5_closed_channel_is_frozen cs s0 eq_refl) as (Ha & Hs & _).
  split; [reflexivity|]. split; [exact Ha | exact Hs].
Defined.

Lemma X6_no_parking_once_sealed_or_closed_witness :
  let s0 := mk_channel (@nil nat) false true None 1 in
  let cs := [Send true 1%nat; Recv true; Recv true] in
  (closed s0 = true \/ sealed s0 = true) /\ ~ In Parked (replies cs s0).
Proof.
  intros s0 cs.
  split; [right; reflexivity|].
  exact (X6_no_parking_once_sealed_or_closed cs s0 (or_intror eq_refl)).
Defined.

Lemma X7_sealed_queue_only_drains_witness :
  let s0 := mk_channel [4; 5; 6]%nat false true (Some 0) 3 in
  let cs := [Recv true; Send false 7%nat; Recv false] in
  (closed s0 = true \/ sealed s0 = true) /\
  all_enqueued cs s0 = [] /\
  queue s0 = all_delivered cs s0 ++ queue (after cs s0).
Proof.
  intros s0 cs.
  destruct (X7_sealed_queue_only_drains cs s0 (or_intror eq_refl))
    as (He & _ & Hq).
  split; [right; reflexivity|]. split; [exact He | exact Hq].
Defined.

Lemma X9_blocking_send_never_evicts_witness :
  let s0 := mk_channel [4%nat] false false (Some 0) 2 in
  let s1 := mk_channel [4; 5]%nat false false (Some 0) 2 in
  send true 5%nat s0 = Returned true s1 /\
  queue s1 = queue s0 ++ [5%nat] /\ size s1 <= buffer_size s0.
Proof.
  intros s0 s1. split; [reflexivity|].
  exact (X9_blocking_send_never_evicts 5%nat s0 s1 eq_refl).
Defined.

Lemma X10_overflow_keeps_newest_witness :
  let s0 := mk_channel [4; 5]%nat false false (Some 0) 2 in
  closed s0 = false /\ sealed s0 = false /\ 0 < buffer_size s0 /\
  exists s',
    send false 6%nat s0 = Returned true s' /\
    queue s' = skipn (length (queue s0 ++ [6%nat])
                      - Z.to_nat (buffer_size s0))
                     (queue s0 ++ [6%nat]).
Proof.
  intros s0.
  split; [reflexivity|]. split; [reflexivity|]. split; [reflexivity|].
  exact (X10_overflow_keeps_newest 6%nat s0 eq_refl eq_refl eq_refl).
Defined.

Lemma X11_dropped_count_when_full_witness :
  let s0 := mk_channel [4; 5]%nat false false None 2 in
  closed s0 = false /\ sealed s0 = false /\ 0 < buffer_size s0 /\
  buffer_size s0 <= size s0 + 1 /\ size s0 + 1 <= size_t_max /\
  exists s',
    send false 6%nat s0 = Returned true s' /\
    size s' = buffer_size s0 /\
    dropped_count s' = Some (size s0 + 1 - size s').
Proof.
  intros s0.
  assert (H1 : buffer_size s0 <= size s0 + 1) by (vm_compute; discriminate).
  assert (H2 : size s0 + 1 <= size_t_max) by (vm_compute; discriminate).
  split; [reflexivity|]. split; [reflexivity|]. split; [reflexivity|].
  split; [exact H1|]. split; [exact H2|].
  exact (X11_dropped_count_when_full 6%nat s0 eq_refl eq_refl eq_refl H1 H2).
Defined.

Lemma X12_send_evicts_at_most_one_witness :
  let cs := [Send false 4%nat; Send false 5%nat] in
  let s := after cs (new_channel 2) in
  let s' := mk_channel [5; 6]%nat false false (Some 1) 2 in
  0 < 2 /\ send false 6%nat s = Returned true s' /\
  ((size s < 2 /\ queue s' = queue s ++ [6%nat]) \/
   (size s = 2 /\ false = false /\
    queue s' = Queue.pop (queue s) ++ [6%nat])).
Proof.
  intros cs s s'. split; [reflexivity|]. split; [reflexivity|].
  exact (X12_send_evicts_at_most_one 2 cs false 6%nat s' eq_refl eq_refl).
Defined.

Lemma X13_is_full_means_at_capacity_witness :
  let cs := [Send false 4%nat; Send false 5%nat; Send false 6%nat] in
  let s := after cs (new_channel 2) in
  0 <= 2 /\ (is_full s = true <-> 0 < 2 /\ size s = 2).
Proof.
  intros cs s.
  assert (H : 0 <= 2) by discriminate.
  split; [exact H|].
  exact (X13_is_full_means_at_capacity 2 cs H).
Defined.

Lemma X14_blocking_send_parks_iff_is_full_witness :
  let s0 := mk_channel [4; 5]%nat false false (Some 0) 2 in
  buffer_size s0 <> 0 /\ closed s0 = false /\ sealed s0 = false /\
  send true 6%nat s0 = Suspended /\ is_full s0 = true.
Proof.
  intros s0.
  assert (H : buffer_size s0 <> 0) by discriminate.
  split; [exact H|]. split; [reflexivity|]. split; [reflexivity|].
  split; [|reflexivity].
  exact (proj2 (X14_blocking_send_parks_iff_is_full 6%nat s0 H
                  eq_refl eq_refl) eq_refl).
Defined.

Lemma X15_recv_succeeds_iff_not_empty_witness :
  let s0 := mk_channel [4; 5]%nat false true (Some 0) 2 in
  closed s0 = false /\ is_empty s0 = false /\
  exists m s', recv true s0 = Returned (Some m) s' /\ size s' = size s0 - 1.
Proof.
  intros s0. split; [reflexivity|]. split; [reflexivity|].
  exact (proj1 (X15_recv_succeeds_iff_not_empty true s0 eq_refl) eq_refl).
Defined.

Lemma X16_recv_releases_parked_sender_witness :
  let s0 := mk_channel [4; 5]%nat false false (Some 0) 2 in
  closed s0 = false /\ sealed s0 = false /\
  0 < buffer_size s0 /\ size s0 = buffer_size s0 /\
  send true 6%nat s0 = Suspended /\
  exists a q s1 s2,
    queue s0 = a :: q /\
    recv false s0 = Returned (Some a) s1 /\
    send true 6%nat s1 = Returned true s2 /\
    queue s2 = q ++ [6%nat].
Proof.
  intros s0.
  split; [reflexivity|]. split; [reflexivity|].
  split; [reflexivity|]. split; [reflexivity|].
  exact (X16_recv_releases_parked_sender false 6%nat s0
           eq_refl eq_refl eq_refl eq_refl).
Defined.

Lemma X17_send_releases_parked_receiver_witness :
  let s0 := @new_channel nat 1 in
  let s1 := mk_channel [9%nat] false false (Some 0) 1 in
  closed s0 = false /\ sealed s0 = false /\ queue s0 = [] /\
  send true 9%nat s0 = Returned true s1 /\
  recv true s0 = Suspended /\
  exists s2, recv true s1 = Returned (Some 9%nat) s2 /\ queue s2 = [].
Proof.
  intros s0 s1.
  split; [reflexivity|]. split; [reflexivity|].
  split; [reflexivity|]. split; [reflexivity|].
  exact (X17_send_releases_parked_receiver true true 9%nat s0 s1
           eq_refl eq_refl eq_refl eq_refl).
Defined.

Lemma X18_only_successful_send_sets_counter_witness :
  let s0 := mk_channel [4; 5]%nat false false (Some 1) 2 in
  let cs := [Recv true; Seal; Send false 8%nat; Recv true; Close] in
  forallb (fun r => negb (is_sent_ok r)) (replies cs s0) = true /\
  dropped_count (after cs s0) = Some 1.
Proof.
  intros s0 cs. split; [reflexivity|].
  exact (X18_only_successful_send_sets_counter cs s0 eq_refl).
Defined.
